(** * ProtocolData: the base class of CAN-bus protocol data

    A shallow embedding of
    [modules/drivers/canbus/can_comm/protocol_data.h]
    (namespace [apollo::drivers::canbus], class template
    [ProtocolData<SensorType>]) and the properties of its member
    functions.

    Member functions are computations over an explicit program state
    (byte memory and the caller-owned sensor records); reading memory
    that is not mapped is a fault.  Machine integers are [Z] with the
    wrap-around of their width written out. *)

From Stdlib Require Import ZArith Lia List Bool Strings.Byte.
From Stdlib Require Import Floats.
From stdpp Require Import base option gmap.

Local Open Scope Z_scope.

(** ** Machine integers *)

(** Conversion to [uint8_t] and to [uint32_t]. *)
Definition wrap8 (z : Z) : Z := z mod 256.
Definition wrap32 (z : Z) : Z := z mod 2 ^ 32.

(** The value of a [uint8_t] memory cell. *)
Definition byte_val (b : byte) : Z := Z.of_N (Byte.to_N b).

(** [struct timeval]. *)
Record timeval := { tv_sec : Z; tv_usec : Z }.

(** ** Relational operators of the template parameter [T]

    [BoundedValue<T>] only uses [operator<] and [operator>] of [T];
    [operator<=] is what the properties are stated with. *)
Class RelOps (T : Type) := {
  op_lt : T -> T -> bool;
  op_gt : T -> T -> bool;
  op_le : T -> T -> bool
}.

(** What holds of the strict operators of every arithmetic type,
    signed or unsigned integers and IEEE 754 floating point alike. *)
Class StrictRelOps (T : Type) `{RelOps T} : Prop := {
  op_gt_lt : forall a b : T, op_gt a b = op_lt b a;
  op_lt_irrefl : forall a : T, op_lt a a = false
}.

(** What holds of [<=] next to them.  A value [a] is comparable when
    [a <= a]: every integer is, and every floating-point value but NaN.
    Only comparable values are related by [<=], and on them [a <= b] is
    the negation of [b < a]. *)
Class OrderedRelOps (T : Type) `{StrictRelOps T} : Prop := {
  op_lt_trans : forall a b c : T,
      op_lt a b = true -> op_lt b c = true -> op_lt a c = true;
  op_le_comparable : forall a b : T,
      op_le a b = true -> op_le a a = true /\ op_le b b = true;
  op_le_lt : forall a b : T,
      op_le a a = true -> op_le b b = true -> op_le a b = negb (op_lt b a)
}.

(** Integer types: the values of [int32_t], [uint8_t], ... as [Z].
    [BoundedValue] does no arithmetic, so no wrap-around is involved. *)
#[export] Instance Z_RelOps : RelOps Z :=
  {| op_lt := Z.ltb; op_gt := Z.gtb; op_le := Z.leb |}.

(** [double]: IEEE 754 binary64, by the primitive comparisons.  In
    IEEE 754 [a > b] is [b < a], also when an operand is NaN (both are
    false then). *)
#[export] Instance double_RelOps : RelOps float :=
  {| op_lt := PrimFloat.ltb;
     op_gt := fun a b => PrimFloat.ltb b a;
     op_le := PrimFloat.leb |}.

(** ** Program state and the monad of member functions *)

Section ProtocolData.

Context {SensorType : Type}.

(** Addresses are integers.  [bytes_of] is the byte-addressed memory
    that holds received frames and transmit buffers, [sensors_of] the
    caller-owned output records, by address. *)
Record State := mkState {
  bytes_of : gmap Z byte;
  sensors_of : gmap Z SensorType
}.

(** The outcome of a call: a value and the state it leaves, a fault
    (undefined behaviour: a read of unmapped memory), or the model of a
    loop running out of the fuel it was given. *)
Inductive Result (A : Type) : Type :=
| Ok (a : A) (st : State)
| Fault
| OutOfFuel.
Arguments Ok {A} a st.
Arguments Fault {A}.
Arguments OutOfFuel {A}.

Definition M (A : Type) : Type := State -> Result A.

Definition ret {A : Type} (a : A) : M A := fun st => Ok a st.

Definition bind {A B : Type} (c : M A) (k : A -> M B) : M B :=
  fun st => match c st with
            | Ok a st' => k a st'
            | Fault => Fault
            | OutOfFuel => OutOfFuel
            end.

Definition out_of_fuel {A : Type} : M A := fun _ => OutOfFuel.

(** Reading a [uint8_t] through a pointer. *)
Definition load8 (p : Z) : M Z :=
  fun st => match bytes_of st !! p with
            | Some b => Ok (byte_val b) st
            | None => Fault
            end.

(** The value a computation returns, if it returns. *)
Definition value_of {A : Type} (r : Result A) : option A :=
  match r with
  | Ok a _ => Some a
  | Fault | OutOfFuel => None
  end.

End ProtocolData.

Arguments State : clear implicits.
Arguments Result : clear implicits.
Arguments M : clear implicits.
Arguments Ok {SensorType A} a st.
Arguments Fault {SensorType A}.
Arguments OutOfFuel {SensorType A}.

Declare Scope cpp_scope.
Delimit Scope cpp_scope with cpp.
Notation "x <- c ;; k" := (bind c (fun x => k))
  (at level 100, c at next level, right associativity) : cpp_scope.
Local Open Scope cpp_scope.

(** ** The class [ProtocolData<SensorType>] *)

(** Modelled from the spec: the constant [CANBUS_MESSAGE_LENGTH] is
    declared in [modules/drivers/canbus/common/canbus_consts.h], which
    is not among the sources; the specification gives the standard CAN
    payload size, 8 bytes, as the default data length. *)
Definition CANBUS_MESSAGE_LENGTH : Z := 8.

(** The data members of a [ProtocolData] object. *)
Record ProtocolData := { data_length_ : Z }.

(** [ProtocolData() = default]: the default member initializer
    [const int32_t data_length_ = CANBUS_MESSAGE_LENGTH]. *)
Definition ProtocolData_default : ProtocolData :=
  {| data_length_ := CANBUS_MESSAGE_LENGTH |}.

Section Members.

Context {SensorType : Type}.

Local Abbreviation M := (M SensorType).

(** *** Static member functions *)

(** [template <typename T> static T BoundedValue(T lower, T upper, T val)] *)
Definition BoundedValue {T : Type} `{RelOps T} (lower upper val : T) : M T :=
  if op_gt lower upper then ret val
  else if op_lt val lower then ret lower
  else if op_gt val upper then ret upper
  else ret val.

(** The loop [for (size_t i = 0; i < length; ++i) sum += input[i];]
    from the state [(i, sum)] on.  [sum] is a [uint8_t]: the addition is
    done in [int] and converted back.  [i] is a [size_t] that stays
    below the [uint32_t] [length], so [++i] does not wrap.  One unit of
    [fuel] is spent per iteration. *)
Fixpoint checksum_loop (fuel : nat) (input length i sum : Z) : M Z :=
  if i <? length then
    match fuel with
    | O => out_of_fuel
    | S fuel' =>
        b <- load8 (input + i) ;;
        checksum_loop fuel' input length (i + 1) (wrap8 (sum + b))
    end
  else ret sum.

(** [static uint8_t CalculateCheckSum(const uint8_t *input,
    const uint32_t length)]: [uint8_t sum = 0], the loop, then
    [return sum ^ 0xFF] converted to [uint8_t].  The loop runs [length]
    times, which is the fuel it is given. *)
Definition CalculateCheckSum (input length : Z) : M Z :=
  sum <- checksum_loop (Z.to_nat length) input length 0 0 ;;
  ret (wrap8 (Z.lxor sum 0xFF)).

(** *** Virtual member functions, as [ProtocolData] defines them *)

(** [uint32_t GetPeriod() const] *)
Definition GetPeriod (this : ProtocolData) : M Z :=
  let CONST_PERIOD := wrap32 (100 * 1000) in
  ret CONST_PERIOD.

(** [int32_t GetLength() const] *)
Definition GetLength (this : ProtocolData) : M Z :=
  ret (data_length_ this).

(** [void Parse(const uint8_t *bytes, int32_t length,
    SensorType *sensor_data) const]: the body is empty. *)
Definition Parse (this : ProtocolData) (bytes length sensor_data : Z)
  : M unit :=
  ret tt.

(** The signature of the three-argument [Parse]. *)
Definition Parse_sig : Type := ProtocolData -> Z -> Z -> Z -> M unit.

(** [void Parse(const uint8_t *bytes, int32_t length,
    const struct timeval &timestamp, SensorType *sensor_data) const].
    Its body calls the three-argument [Parse], a virtual call:
    [virtual_Parse] is the function that call resolves to for the
    dynamic type of [this]. *)
Definition Parse_timestamp (virtual_Parse : Parse_sig)
    (this : ProtocolData) (bytes length : Z) (timestamp : timeval)
    (sensor_data : Z) : M unit :=
  virtual_Parse this bytes length sensor_data.

(** [void UpdateData(uint8_t *data)]: the body is empty. *)
Definition UpdateData (this : ProtocolData) (data : Z) : M unit :=
  ret tt.

(** [void Reset()]: the body is empty. *)
Definition Reset (this : ProtocolData) : M unit :=
  ret tt.

(** *** Dynamic dispatch *)

(** The virtual function table of a class derived from [ProtocolData]. *)
Record VTable := {
  vt_GetPeriod : ProtocolData -> M Z;
  vt_GetLength : ProtocolData -> M Z;
  vt_Parse : Parse_sig;
  vt_Parse_timestamp : ProtocolData -> Z -> Z -> timeval -> Z -> M unit;
  vt_UpdateData : ProtocolData -> Z -> M unit;
  vt_Reset : ProtocolData -> M unit
}.

(** The virtual functions a derived class overrides. *)
Record Overrides := {
  ov_GetPeriod : option (ProtocolData -> M Z);
  ov_GetLength : option (ProtocolData -> M Z);
  ov_Parse : option Parse_sig;
  ov_Parse_timestamp :
    option (ProtocolData -> Z -> Z -> timeval -> Z -> M unit);
  ov_UpdateData : option (ProtocolData -> Z -> M unit);
  ov_Reset : option (ProtocolData -> M unit)
}.

(** The table of a class: an overridden slot holds the override, any
    other the function of [ProtocolData].  The virtual call in the
    inherited [Parse_timestamp] goes through the [vt_Parse] slot. *)
Definition vtable_of (ov : Overrides) : VTable :=
  let parse := default Parse (ov_Parse ov) in
  {| vt_GetPeriod := default GetPeriod (ov_GetPeriod ov);
     vt_GetLength := default GetLength (ov_GetLength ov);
     vt_Parse := parse;
     vt_Parse_timestamp :=
       default (Parse_timestamp parse) (ov_Parse_timestamp ov);
     vt_UpdateData := default UpdateData (ov_UpdateData ov);
     vt_Reset := default Reset (ov_Reset ov) |}.

(** [ProtocolData] itself, unspecialized. *)
Definition no_overrides : Overrides :=
  {| ov_GetPeriod := None; ov_GetLength := None; ov_Parse := None;
     ov_Parse_timestamp := None; ov_UpdateData := None; ov_Reset := None |}.

Definition base_vtable : VTable := vtable_of no_overrides.

End Members.

(** ** Specification-level notions *)

(** The arithmetic sum of a byte sequence. *)
Definition sum_bytes (b : list byte) : Z :=
  fold_right (fun x acc => byte_val x + acc) 0 b.

(** The memory of [st] holds the byte sequence [b] from address [input] on. *)
Definition holds {SensorType : Type} (st : State SensorType) (input : Z)
    (b : list byte) : Prop :=
  forall (i : nat) (x : byte),
    nth_error b i = Some x -> bytes_of st !! (input + Z.of_nat i) = Some x.

(** The memory with [b] stored from [input] on, over [m]. *)
Fixpoint store_bytes (input : Z) (b : list byte) (m : gmap Z byte)
  : gmap Z byte :=
  match b with
  | [] => m
  | x :: b' => <[input := x]> (store_bytes (input + 1) b' m)
  end.

(** ** Example inputs *)

(** A state whose memory holds the frame [0x01, 0x02] at address 100,
    and one output record at address 8. *)
Definition example_state : State Z :=
  mkState (store_bytes 100 [x01; x02] ∅) {[ 8 := 0 ]}.

(** A decoder that overrides the three-argument [Parse] only: it
    stores the first byte of the frame in the output record. *)
Definition example_Parse : Parse_sig (SensorType := Z) :=
  fun this bytes length sensor_data =>
    if length <? 1 then ret tt
    else b <- load8 bytes ;;
         fun st => Ok tt (mkState (bytes_of st)
                                  (<[sensor_data := b]> (sensors_of st))).

Definition example_overrides : Overrides (SensorType := Z) :=
  {| ov_GetPeriod := None; ov_GetLength := None;
     ov_Parse := Some example_Parse;
     ov_Parse_timestamp := None; ov_UpdateData := None; ov_Reset := None |}.

(** The example frame with its two bytes swapped, at address 200. *)
Definition swapped_state : State Z :=
  mkState (store_bytes 200 [x02; x01] ∅) ∅.

(** The example frame with its second byte corrupted. *)
Definition corrupted_state : State Z :=
  mkState (store_bytes 100 [x01; x03] ∅) ∅.

(** The example frame followed by its checksum byte, 0xFC. *)
Definition frame_state : State Z :=
  mkState (store_bytes 100 [x01; x02; xfc] ∅) ∅.

(** The example frame followed by two bytes of zero padding. *)
Definition padded_state : State Z :=
  mkState (store_bytes 100 [x01; x02; x00; x00] ∅) ∅.

(** ** The operator laws of the integers *)

#[export] Instance Z_StrictRelOps : StrictRelOps Z.
Proof.
  split; intros; cbn.
  - apply Z.gtb_ltb.
  - apply Z.ltb_irrefl.
Qed.

#[export] Instance Z_OrderedRelOps : OrderedRelOps Z.
Proof.
  split; intros *; cbn.
  - rewrite !Z.ltb_lt. lia.
  - intros _. rewrite !Z.leb_refl. split; reflexivity.
  - intros _ _. apply Z.leb_antisym.
Qed.

(** ** The operator laws of [double]

    Through the specification of the primitive comparisons by
    [SpecFloat.SFcompare]. *)

Module DoubleOrder.

Import SpecFloat.

Lemma SFcompare_antisym (x y : spec_float) :
  SFcompare y x = option_map CompOpp (SFcompare x y).
Proof.
  destruct x as [sx | sx | | sx mx ex], y as [sy | sy | | sy my ey]; cbn;
    try (destruct sx); try (destruct sy); try reflexivity;
    change (Pos.compare_cont Eq) with Pos.compare;
    rewrite (Z.compare_antisym ex ey), (Pos.compare_antisym mx my);
    destruct (ex ?= ey); cbn; try reflexivity.
Qed.

Lemma SFltb_irrefl (x : spec_float) : SFltb x x = false.
Proof.
  unfold SFltb.
  destruct x as [s | s | | s m e]; cbn; try (destruct s; reflexivity);
    try reflexivity.
  rewrite Z.compare_refl, Pos.compare_cont_refl.
  destruct s; reflexivity.
Qed.

Lemma SFltb_trans (x y z : spec_float) :
  SFltb x y = true -> SFltb y z = true -> SFltb x z = true.
Proof.
  unfold SFltb.
  destruct x as [sx | sx | | sx mx ex], y as [sy | sy | | sy my ey],
    z as [sz | sz | | sz mz ez]; cbn;
    try (destruct sx); try (destruct sy); try (destruct sz); cbn;
    try discriminate; try reflexivity.
  all: change (Pos.compare_cont Eq) with Pos.compare;
    destruct (Z.compare_spec ex ey), (Z.compare_spec ey ez),
      (Z.compare_spec ex ez); try lia; try discriminate; try reflexivity;
    destruct (Pos.compare_spec mx my), (Pos.compare_spec my mz),
      (Pos.compare_spec mx mz); cbn; try lia; try discriminate;
    try reflexivity.
Qed.

Lemma SFleb_comparable (x y : spec_float) :
  SFleb x y = true -> SFleb x x = true /\ SFleb y y = true.
Proof.
  unfold SFleb.
  destruct x as [sx | sx | | sx mx ex], y as [sy | sy | | sy my ey]; cbn;
    try discriminate; intros _;
    rewrite ?Z.compare_refl, ?Pos.compare_cont_refl;
    try (destruct sx); try (destruct sy); split; reflexivity.
Qed.

Lemma SFleb_ltb (x y : spec_float) :
  SFleb x x = true -> SFleb y y = true -> SFleb x y = negb (SFltb y x).
Proof.
  unfold SFleb, SFltb. rewrite (SFcompare_antisym x y).
  destruct x as [sx | sx | | sx mx ex]; try discriminate;
    (destruct y as [sy | sy | | sy my ey]; try discriminate); intros _ _;
    destruct (SFcompare _ _) as [[| |] |] eqn:Hc; try reflexivity;
    cbn in Hc; discriminate.
Qed.

End DoubleOrder.

(** The laws of the strict operators hold of [double], NaN included. *)
#[export] Instance double_StrictRelOps : StrictRelOps float.
Proof.
  split; intros; cbn.
  - reflexivity.
  - rewrite ltb_spec. apply DoubleOrder.SFltb_irrefl.
Qed.

#[export] Instance double_OrderedRelOps : OrderedRelOps float.
Proof.
  split; intros *; cbn; rewrite ?ltb_spec, ?leb_spec.
  - apply DoubleOrder.SFltb_trans.
  - apply DoubleOrder.SFleb_comparable.
  - apply DoubleOrder.SFleb_ltb.
Qed.

(** ** Arithmetic of the checksum *)

Lemma wrap8_range (z : Z) : 0 <= wrap8 z < 256.
Proof. unfold wrap8. apply Z.mod_pos_bound. lia. Qed.

Lemma wrap8_small (z : Z) : 0 <= z < 256 -> wrap8 z = z.
Proof. unfold wrap8. apply Z.mod_small. Qed.

Lemma wrap8_add_l (a b : Z) : wrap8 (wrap8 a + b) = wrap8 (a + b).
Proof. unfold wrap8. apply Zplus_mod_idemp_l. Qed.

(** On a [uint8_t], [^ 0xFF] is the complement to 255: checked on each
    of the 256 values. *)
Lemma lxor_0xFF (s : Z) : 0 <= s < 256 -> Z.lxor s 0xFF = 255 - s.
Proof.
  intros Hs.
  assert (Hall : forallb (fun k => Z.lxor k 0xFF =? 255 - k)
                   (map Z.of_nat (seq 0 256)) = true) by (vm_compute; reflexivity).
  rewrite forallb_forall in Hall.
  apply Z.eqb_eq, Hall.
  apply in_map_iff. exists (Z.to_nat s). split; [lia |].
  apply in_seq. lia.
Qed.

Lemma sum_bytes_app (b c : list byte) :
  sum_bytes (b ++ c) = sum_bytes b + sum_bytes c.
Proof.
  induction b as [| x b IH]; cbn; [reflexivity |].
  fold (sum_bytes (b ++ c)) (sum_bytes b). lia.
Qed.

(** ** The checksum loop *)

Section Checksum.

Context {SensorType : Type}.
Implicit Types (st : State SensorType) (b pre rest : list byte).

Lemma holds_store input b (m : gmap Z byte) (s : gmap Z SensorType) :
  holds (mkState m s) input b ->
  forall x, holds (mkState (<[input - 1 := x]> m) s) (input - 1) (x :: b).
Proof.
  intros Hb x [| i] y; cbn.
  - intros [= ->]. rewrite Z.add_0_r. apply lookup_insert_eq.
  - intros Hy. rewrite lookup_insert_ne by lia.
    rewrite <- (Hb i y Hy). cbn [bytes_of]. f_equal. lia.
Qed.

(** Storing a sequence makes the memory hold it. *)
Lemma holds_store_bytes b input (m : gmap Z byte) (s : gmap Z SensorType) :
  holds (mkState (store_bytes input b m) s) input b.
Proof.
  revert input. induction b as [| x b IH]; intros input.
  - intros [| i] y; discriminate.
  - cbn [store_bytes].
    replace input with (input + 1 - 1) at 1 3 by lia.
    apply holds_store, IH.
Qed.

Lemma load8_holds st input pre x rest :
  holds st input (pre ++ x :: rest) ->
  load8 (input + Z.of_nat (length pre)) st = Ok (byte_val x) st.
Proof.
  intros Hb. unfold load8.
  rewrite (Hb (length pre) x); [reflexivity |].
  rewrite nth_error_app2 by lia.
  replace (length pre - length pre)%nat with 0%nat by lia. reflexivity.
Qed.

(** The loop invariant: with the first [length pre] bytes consumed and
    [sum] their sum as a [uint8_t], the loop ends with the sum of all
    of them, in the same state. *)
Lemma checksum_loop_spec rest :
  forall pre fuel input sum st,
    holds st input (pre ++ rest) ->
    (length rest <= fuel)%nat ->
    0 <= sum < 256 ->
    checksum_loop fuel input (Z.of_nat (length (pre ++ rest)))
      (Z.of_nat (length pre)) sum st
    = Ok (wrap8 (sum + sum_bytes rest)) st.
Proof.
  induction rest as [| x rest IH]; intros pre fuel input sum st Hb Hfuel Hsum.
  - rewrite app_nil_r. cbn [sum_bytes fold_right].
    destruct fuel; cbn [checksum_loop]; rewrite Z.ltb_irrefl;
      unfold ret; rewrite Z.add_0_r, wrap8_small by lia; reflexivity.
  - destruct fuel as [| fuel]; [cbn in Hfuel; lia |].
    cbn [checksum_loop].
    replace (Z.of_nat (length pre) <? Z.of_nat (length (pre ++ x :: rest)))
      with true
      by (symmetry; apply Z.ltb_lt; rewrite length_app; cbn; lia).
    unfold bind at 1. rewrite (load8_holds _ _ _ _ _ Hb).
    replace (pre ++ x :: rest) with ((pre ++ [x]) ++ rest) in *
      by (rewrite <- app_assoc; reflexivity).
    replace (Z.of_nat (length pre) + 1) with (Z.of_nat (length (pre ++ [x])))
      by (rewrite length_app; cbn; lia).
    rewrite IH; [| assumption | cbn in Hfuel; lia | apply wrap8_range].
    rewrite wrap8_add_l. cbn [sum_bytes fold_right].
    fold (sum_bytes rest). f_equal. f_equal. lia.
Qed.

(** The loop only reads, and the fuel of the iterations left is
    enough: it faults on an unmapped byte or ends in the state it
    started in. *)
Lemma checksum_loop_frame fuel :
  forall input length i sum st,
    (Z.to_nat (length - i) <= fuel)%nat ->
    checksum_loop fuel input length i sum st = Fault \/
    exists r, checksum_loop fuel input length i sum st = Ok r st.
Proof.
  induction fuel as [| fuel IH]; intros input length i sum st Hfuel;
    cbn [checksum_loop]; destruct (i <? length) eqn:Hi.
  - apply Z.ltb_lt in Hi. lia.
  - right. eexists. reflexivity.
  - apply Z.ltb_lt in Hi.
    unfold bind, load8. destruct (bytes_of st !! (input + i)).
    + apply IH. lia.
    + left. reflexivity.
  - right. eexists. reflexivity.
Qed.

(** The loop's result is a function of the bytes it reads. *)
Lemma checksum_loop_reads fuel :
  forall input length i sum st1 st2,
    (forall k, i <= k < length ->
               bytes_of st1 !! (input + k) = bytes_of st2 !! (input + k)) ->
    value_of (checksum_loop fuel input length i sum st1)
    = value_of (checksum_loop fuel input length i sum st2).
Proof.
  induction fuel as [| fuel IH]; intros input length i sum st1 st2 Hagree;
    cbn [checksum_loop]; destruct (i <? length) eqn:Hi;
    try reflexivity.
  apply Z.ltb_lt in Hi.
  unfold bind, load8. rewrite <- (Hagree i) by lia.
  destruct (bytes_of st1 !! (input + i)); [| reflexivity].
  apply IH. intros k Hk. apply Hagree. lia.
Qed.

End Checksum.

(** ** Properties of [CalculateCheckSum] *)

Section ChecksumProperties.

Context {SensorType : Type}.
Implicit Types (st : State SensorType) (b : list byte).

(** The checksum as the complement to 255 of the byte sum modulo 256. *)
Lemma CalculateCheckSum_complement st input b :
  holds st input b ->
  CalculateCheckSum input (Z.of_nat (length b)) st
  = Ok (255 - sum_bytes b mod 256) st.
Proof.
  intros Hb.
  unfold CalculateCheckSum, bind. rewrite Nat2Z.id.
  rewrite (checksum_loop_spec b [] _ input 0 st Hb) by lia.
  unfold ret. rewrite Z.add_0_l.
  pose proof (wrap8_range (sum_bytes b)) as Hr.
  rewrite lxor_0xFF by exact Hr.
  rewrite wrap8_small by lia. reflexivity.
Qed.

(** C1. For every byte sequence [b] of length [n] held in memory at
    [input], [CalculateCheckSum(input, n)] returns the arithmetic sum of
    the [n] bytes modulo 256, XOR-ed with 0xFF, and leaves the state as
    it was; for the bytes [0x01, 0x02] that value is 0xFC. *)
Theorem CalculateCheckSum_sum_xor st input b :
  holds st input b ->
  CalculateCheckSum input (Z.of_nat (length b)) st
  = Ok (Z.lxor (sum_bytes b mod 256) 0xFF) st
  /\ Z.lxor (sum_bytes [x01; x02] mod 256) 0xFF = 0xFC.
Proof.
  intros Hb. split; [| reflexivity].
  rewrite (CalculateCheckSum_complement st input b Hb).
  rewrite lxor_0xFF by (apply Z.mod_pos_bound; lia).
  reflexivity.
Qed.

(** C4. [CalculateCheckSum] of an empty input (length 0) returns 0xFF,
    whatever the pointer and the state. *)
Theorem CalculateCheckSum_empty st input :
  CalculateCheckSum input 0 st = Ok 0xFF st.
Proof. reflexivity. Qed.

(** C9. Checksum verification identity: the sum of the bytes plus
    their checksum is 0xFF modulo 256, so a frame whose trailing byte
    is the checksum of its payload sums to 0xFF modulo 256. *)
Theorem CalculateCheckSum_verifies st input b :
  holds st input b ->
  exists c,
    CalculateCheckSum input (Z.of_nat (length b)) st = Ok c st
    /\ (sum_bytes b + c) mod 256 = 0xFF
    /\ forall t : byte, byte_val t = c -> sum_bytes (b ++ [t]) mod 256 = 0xFF.
Proof.
  intros Hb.
  pose proof (CalculateCheckSum_complement st input b Hb) as Hc.
  assert (Hsum : (sum_bytes b + (255 - sum_bytes b mod 256)) mod 256 = 255).
  { pose proof (Z.mod_pos_bound (sum_bytes b) 256 ltac:(lia)) as Hr.
    rewrite Z.add_comm, <- Zplus_mod_idemp_r.
    replace (255 - sum_bytes b mod 256 + sum_bytes b mod 256) with 255 by lia.
    reflexivity. }
  exists (255 - sum_bytes b mod 256). split; [exact Hc |].
  split; [exact Hsum |].
  intros t Ht. rewrite sum_bytes_app. cbn [sum_bytes fold_right].
  rewrite Ht, Z.add_0_r. exact Hsum.
Qed.

End ChecksumProperties.

Lemma CalculateCheckSum_sum_xor_witness :
  CalculateCheckSum 100 2 example_state = Ok 0xFC example_state.
Proof.
  exact (proj1 (CalculateCheckSum_sum_xor example_state 100 [x01; x02]
                  (holds_store_bytes [x01; x02] 100 ∅ {[ 8 := 0 ]}))).
Defined.

Lemma CalculateCheckSum_verifies_witness :
  exists c,
    CalculateCheckSum 100 2 example_state = Ok c example_state
    /\ (3 + c) mod 256 = 0xFF
    /\ forall t : byte, byte_val t = c -> sum_bytes [x01; x02; t] mod 256 = 0xFF.
Proof.
  exact (CalculateCheckSum_verifies example_state 100 [x01; x02]
           (holds_store_bytes [x01; x02] 100 ∅ {[ 8 := 0 ]})).
Defined.

(** ** Properties of [BoundedValue] *)

Section BoundedValueProperties.

Context {SensorType T : Type} `{RelOps T}.
Implicit Types (st : State SensorType) (lower upper val : T).

(** C3. If [lower > upper], [BoundedValue(lower, upper, val)] returns
    [val] unchanged, for every [val], and does not fail. *)
Theorem BoundedValue_passthrough st lower upper val :
  op_gt lower upper = true ->
  BoundedValue lower upper val st = Ok val st.
Proof.
  intros Hgt. unfold BoundedValue. rewrite Hgt. reflexivity.
Qed.

(** The result of [BoundedValue] is one of its three arguments, chosen
    by the three comparisons, in an unchanged state. *)
Lemma BoundedValue_cases st lower upper val :
  BoundedValue lower upper val st
  = Ok (if op_gt lower upper then val
        else if op_lt val lower then lower
        else if op_gt val upper then upper
        else val) st.
Proof.
  unfold BoundedValue.
  destruct (op_gt lower upper); [reflexivity |].
  destruct (op_lt val lower); [reflexivity |].
  destruct (op_gt val upper); reflexivity.
Qed.

(** C10. [BoundedValue] is idempotent, for every [lower], [upper] and
    [val], the case [lower > upper] included: bounding the bounded value
    again returns it as it is. *)
Theorem BoundedValue_idempotent `{!StrictRelOps T} st lower upper val :
  (r <- BoundedValue lower upper val ;; BoundedValue lower upper r) st
  = BoundedValue lower upper val st.
Proof.
  unfold bind. rewrite (BoundedValue_cases st lower upper val).
  rewrite BoundedValue_cases.
  destruct (op_gt lower upper) eqn:Hlu; [reflexivity |].
  destruct (op_lt val lower) eqn:Hvl.
  - rewrite op_lt_irrefl, Hlu. reflexivity.
  - destruct (op_gt val upper) eqn:Hvu.
    + rewrite <- op_gt_lt, Hlu, op_gt_lt, op_lt_irrefl. reflexivity.
    + rewrite Hvl, Hvu. reflexivity.
Qed.

(** X12. For [lower <= upper], [BoundedValue(lower, upper, val)] is
    [lower] when [val < lower], [upper] when [val > upper] and [val]
    when [val] is in range, for every [val]; and for a comparable [val]
    ([val <= val]: every integer, every floating-point value but NaN)
    it lies in [[lower, upper]]. *)
Theorem BoundedValue_clamps `{!StrictRelOps T} `{!OrderedRelOps T}
    st lower upper val :
  op_le lower upper = true ->
  exists r,
    BoundedValue lower upper val st = Ok r st
    /\ (op_lt val lower = true -> r = lower)
    /\ (op_gt val upper = true -> r = upper)
    /\ (op_le lower val = true -> op_le val upper = true -> r = val)
    /\ (op_le val val = true ->
        op_le lower r = true /\ op_le r upper = true).
Proof.
  intros Hle.
  destruct (op_le_comparable _ _ Hle) as [Hlower Hupper].
  pose proof (op_le_lt lower upper Hlower Hupper) as Hlu.
  rewrite Hle in Hlu. symmetry in Hlu. apply negb_true_iff in Hlu.
  eexists. split; [apply BoundedValue_cases |].
  rewrite !op_gt_lt, Hlu.
  destruct (op_lt val lower) eqn:Hvl.
  - split; [reflexivity |]. split; [| split].
    + intros Huv. pose proof (op_lt_trans _ _ _ Huv Hvl) as Hul. congruence.
    + intros Hlv _. destruct (op_le_comparable _ _ Hlv) as [_ Hval].
      rewrite (op_le_lt lower val Hlower Hval), Hvl in Hlv. discriminate.
    + intros _. split; assumption.
  - split; [discriminate |].
    destruct (op_lt upper val) eqn:Huv.
    + split; [reflexivity |]. split.
      * intros _ Hvu. destruct (op_le_comparable _ _ Hvu) as [Hval _].
        rewrite (op_le_lt val upper Hval Hupper), Huv in Hvu. discriminate.
      * intros _. split; assumption.
    + split; [discriminate |]. split; [reflexivity |].
      intros Hval.
      rewrite (op_le_lt lower val Hlower Hval), Hvl.
      rewrite (op_le_lt val upper Hval Hupper), Huv.
      split; reflexivity.
Qed.

End BoundedValueProperties.

Lemma BoundedValue_passthrough_witness :
  BoundedValue 10 0 7 example_state = Ok 7 example_state.
Proof.
  apply (BoundedValue_passthrough example_state 10 0 7). reflexivity.
Defined.

(** Idempotence at integers, and at [double] with a NaN value. *)
Lemma BoundedValue_idempotent_witness :
  (r <- BoundedValue 0 10 15 ;; BoundedValue 0 10 r) example_state
  = BoundedValue 0 10 15 example_state
  /\ (r <- BoundedValue 0%float 10%float nan ;;
      BoundedValue 0%float 10%float r) example_state
     = BoundedValue 0%float 10%float nan example_state.
Proof.
  split.
  - apply (BoundedValue_idempotent example_state 0 10 15).
  - apply (BoundedValue_idempotent example_state 0%float 10%float nan).
Defined.

(** The examples of the specification, [BoundedValue(0, 10, 15) == 10],
    [BoundedValue(0, 10, -5) == 0] and [BoundedValue(0, 10, 5) == 5],
    and the first of them at [double]. *)
Lemma BoundedValue_clamps_witness :
  BoundedValue 0 10 15 example_state = Ok 10 example_state
  /\ BoundedValue 0 10 (-5) example_state = Ok 0 example_state
  /\ BoundedValue 0 10 5 example_state = Ok 5 example_state
  /\ BoundedValue 0%float 10%float 15%float example_state
     = Ok 10%float example_state.
Proof.
  split; [| split; [| split]].
  - destruct (BoundedValue_clamps example_state 0 10 15)
      as (r & Hr & _ & Hup & _); [reflexivity |].
    rewrite Hr, Hup; reflexivity.
  - destruct (BoundedValue_clamps example_state 0 10 (-5))
      as (r & Hr & Hlo & _); [reflexivity |].
    rewrite Hr, Hlo; reflexivity.
  - destruct (BoundedValue_clamps example_state 0 10 5)
      as (r & Hr & _ & _ & Hin & _); [reflexivity |].
    rewrite Hr, Hin; reflexivity.
  - destruct (BoundedValue_clamps example_state 0%float 10%float 15%float)
      as (r & Hr & _ & Hup & _); [reflexivity |].
    rewrite Hr, Hup; reflexivity.
Defined.

(** C2, where the code departs from it.  The comment of the
    declaration reads: check if the value is in [[lower, upper]], if
    not, round it to bound.  [BoundedValue<double>(0.0, 10.0, NaN)] has
    [0 <= 10] and returns NaN, which is not in [[0, 10]]: neither
    [0 <= NaN] nor [NaN <= 10] holds. *)
Lemma BoundedValue_NaN_not_clamped :
  op_le 0%float 10%float = true
  /\ BoundedValue 0%float 10%float nan example_state = Ok nan example_state
  /\ op_le 0%float nan = false
  /\ op_le nan 10%float = false.
Proof. repeat split. Qed.

(** ** Properties of the virtual member functions *)

Section VirtualProperties.

Context {SensorType : Type}.
Implicit Types (st : State SensorType) (this : ProtocolData)
  (ov : Overrides (SensorType := SensorType)).

(** C5. On an unspecialized [ProtocolData], [GetPeriod()] returns
    100000 (microseconds) and [GetLength()] returns the standard CAN
    payload size, 8 bytes. *)
Theorem base_GetPeriod_GetLength st :
  vt_GetPeriod base_vtable ProtocolData_default st = Ok 100000 st
  /\ vt_GetLength base_vtable ProtocolData_default st = Ok 8 st.
Proof. split; reflexivity. Qed.

(** C6. The functions [Parse], [UpdateData] and [Reset] of
    [ProtocolData], and so both [Parse] overloads of an unspecialized
    instance, return without a fault and leave the whole state, the
    output record included, as it was, for every pointer and every
    length, zero included. *)
Theorem default_Parse_UpdateData_Reset_inert
    st this bytes length timestamp sensor_data data :
  Parse this bytes length sensor_data st = Ok tt st
  /\ UpdateData this data st = Ok tt st
  /\ Reset this st = Ok tt st
  /\ vt_Parse base_vtable this bytes length sensor_data st = Ok tt st
  /\ vt_Parse_timestamp base_vtable this bytes length timestamp sensor_data st
     = Ok tt st
  /\ vt_UpdateData base_vtable this data st = Ok tt st
  /\ vt_Reset base_vtable this st = Ok tt st.
Proof. repeat split. Qed.

(** C7. In every class that does not override the timestamp-aware
    [Parse], calling it gives exactly the result and the state of
    calling the three-argument [Parse] of that class with the same
    bytes, length and output record: the timestamp is discarded. *)
Theorem Parse_timestamp_delegates
    ov st this bytes length timestamp sensor_data :
  ov_Parse_timestamp ov = None ->
  vt_Parse_timestamp (vtable_of ov) this bytes length timestamp sensor_data st
  = vt_Parse (vtable_of ov) this bytes length sensor_data st.
Proof.
  intros Hov. unfold vtable_of. cbn. rewrite Hov. reflexivity.
Qed.

(** C8. [CalculateCheckSum] and [BoundedValue] are pure and
    deterministic.  [CalculateCheckSum] faults or returns in the state
    it was called in, where a second call returns the same value; its
    value is the same in any two states that agree on the bytes
    [input[0..length)].  [BoundedValue] returns, in the state it was
    called in, a value that does not depend on the state. *)
Theorem CalculateCheckSum_BoundedValue_pure :
  (forall st input length,
      CalculateCheckSum input length st = Fault
      \/ exists r,
          CalculateCheckSum input length st = Ok r st
          /\ (r1 <- CalculateCheckSum input length ;;
              r2 <- CalculateCheckSum input length ;;
              ret (r1, r2)) st = Ok (r, r) st)
  /\ (forall st1 st2 input length,
         (forall k, 0 <= k < length ->
                    bytes_of st1 !! (input + k) = bytes_of st2 !! (input + k)) ->
         value_of (CalculateCheckSum input length st1)
         = value_of (CalculateCheckSum input length st2))
  /\ (forall (T : Type) (ops : RelOps T) (lower upper val : T),
         exists r : T,
           forall st,
             BoundedValue lower upper val st = Ok r st
             /\ (r1 <- BoundedValue lower upper val ;;
                 r2 <- BoundedValue lower upper val ;;
                 ret (r1, r2)) st = Ok (r, r) st).
Proof.
  split; [| split].
  - intros st input length. unfold CalculateCheckSum, bind.
    destruct (checksum_loop_frame (Z.to_nat length) input length 0 0 st)
      as [Hf | [s Hs]]; [lia | |].
    + left. rewrite Hf. reflexivity.
    + right. rewrite Hs. eexists. split; [reflexivity |].
      unfold ret. rewrite Hs. reflexivity.
  - intros st1 st2 input length Hagree. unfold CalculateCheckSum, bind.
    pose proof (checksum_loop_reads (Z.to_nat length) input length 0 0
                  st1 st2 Hagree) as Hv.
    destruct (checksum_loop _ _ _ _ _ st1), (checksum_loop _ _ _ _ _ st2);
      cbn in Hv |- *; congruence.
  - intros T ops lower upper val.
    eexists. intros st. unfold bind.
    rewrite !BoundedValue_cases. split; reflexivity.
Qed.

End VirtualProperties.

(** The base class, and a decoder that overrides the three-argument
    [Parse] only: its inherited timestamp-aware [Parse] decodes the
    frame at address 100 into the record at address 8. *)
Lemma Parse_timestamp_delegates_witness :
  vt_Parse_timestamp (vtable_of no_overrides) ProtocolData_default
    100 2 {| tv_sec := 1; tv_usec := 0 |} 8 example_state
  = vt_Parse (vtable_of no_overrides) ProtocolData_default
      100 2 8 example_state
  /\ vt_Parse_timestamp (vtable_of example_overrides) ProtocolData_default
       100 2 {| tv_sec := 1; tv_usec := 0 |} 8 example_state
     = Ok tt (mkState (bytes_of example_state) {[ 8 := 1 ]}).
Proof.
  split.
  - apply (Parse_timestamp_delegates no_overrides example_state). reflexivity.
  - rewrite (Parse_timestamp_delegates example_overrides example_state)
      by reflexivity.
    vm_compute. reflexivity.
Defined.

(** The checksum of the example frame does not depend on the output
    records. *)
Lemma CalculateCheckSum_BoundedValue_pure_witness :
  value_of (CalculateCheckSum 100 2 example_state)
  = value_of (CalculateCheckSum 100 2
                (mkState (bytes_of example_state) (∅ : gmap Z Z))).
Proof.
  apply (proj1 (proj2 CalculateCheckSum_BoundedValue_pure)).
  intros k Hk. reflexivity.
Defined.

(** ** Further properties of [CalculateCheckSum] *)

Lemma byte_val_range (x : byte) : 0 <= byte_val x < 256.
Proof.
  unfold byte_val. pose proof (Byte.to_N_bounded x). lia.
Qed.

Lemma byte_val_inj (x y : byte) : byte_val x = byte_val y -> x = y.
Proof.
  unfold byte_val. intros Hxy. apply N2Z.inj in Hxy.
  pose proof (Byte.of_to_N x) as Hx. rewrite Hxy, Byte.of_to_N in Hx.
  congruence.
Qed.

Lemma sum_bytes_Permutation (b c : list byte) :
  Permutation b c -> sum_bytes b = sum_bytes c.
Proof.
  induction 1 as [| x b c _ IH | x y b | b c d _ IHbc _ IHcd]; cbn.
  - reflexivity.
  - fold (sum_bytes b) (sum_bytes c). lia.
  - lia.
  - congruence.
Qed.

Lemma sum_bytes_zeros (n : nat) : sum_bytes (repeat x00 n) = 0.
Proof.
  induction n as [| n IH]; cbn; [reflexivity |].
  fold (sum_bytes (repeat x00 n)). rewrite IH. reflexivity.
Qed.

Section ChecksumFurther.

Context {SensorType : Type}.
Implicit Types (st : State SensorType) (b c pre post : list byte).

Lemma holds_app_l st input b c :
  holds st input (b ++ c) -> holds st input b.
Proof.
  intros Hbc i x Hx. apply Hbc.
  rewrite nth_error_app1; [exact Hx |].
  apply nth_error_Some. congruence.
Qed.

Lemma holds_app_r st input b c :
  holds st input (b ++ c) -> holds st (input + Z.of_nat (length b)) c.
Proof.
  intros Hbc i x Hx.
  replace (input + Z.of_nat (length b) + Z.of_nat i)
    with (input + Z.of_nat (length b + i)) by lia.
  apply Hbc. rewrite nth_error_app2 by lia.
  replace (length b + i - length b)%nat with i by lia. exact Hx.
Qed.

(** The loop faults exactly when one of the bytes it still has to read
    is not mapped. *)
Lemma checksum_loop_fault_iff fuel :
  forall input length i sum st,
    (Z.to_nat (length - i) <= fuel)%nat ->
    checksum_loop fuel input length i sum st = Fault
    <-> exists k, i <= k < length /\ bytes_of st !! (input + k) = None.
Proof.
  induction fuel as [| fuel IH]; intros input length i sum st Hfuel;
    cbn [checksum_loop]; destruct (i <? length) eqn:Hi.
  - apply Z.ltb_lt in Hi. lia.
  - apply Z.ltb_ge in Hi. split; [discriminate |].
    intros (k & Hk & _). lia.
  - apply Z.ltb_lt in Hi. unfold bind, load8.
    destruct (bytes_of st !! (input + i)) as [x |] eqn:Hx.
    + rewrite IH by lia. split; intros (k & Hk & Hnone).
      * exists k. split; [lia | exact Hnone].
      * exists k. split; [| exact Hnone].
        destruct (Z.eq_dec k i) as [-> |]; [congruence | lia].
    + split; [| reflexivity]. intros _. exists i. split; [lia | exact Hx].
  - apply Z.ltb_ge in Hi. split; [discriminate |].
    intros (k & Hk & _). lia.
Qed.

(** X1. [CalculateCheckSum] has no bounds check of its own: it faults
    exactly when one of the bytes [input[0..length)] is not mapped, and
    otherwise returns in the state it was called in. *)
Theorem CalculateCheckSum_fault_iff st input length :
  (CalculateCheckSum input length st = Fault
   <-> exists k, 0 <= k < length /\ bytes_of st !! (input + k) = None)
  /\ ((exists r, CalculateCheckSum input length st = Ok r st)
      <-> forall k, 0 <= k < length ->
                    is_Some (bytes_of st !! (input + k))).
Proof.
  assert (Hfault : CalculateCheckSum input length st = Fault
                   <-> exists k, 0 <= k < length
                                 /\ bytes_of st !! (input + k) = None).
  { rewrite <- (checksum_loop_fault_iff (Z.to_nat length) input length 0 0 st)
      by lia.
    unfold CalculateCheckSum, bind.
    destruct (checksum_loop _ _ _ _ _ st); split; try discriminate;
      reflexivity. }
  split; [exact Hfault |].
  split.
  - intros [r Hr] k Hk.
    destruct (bytes_of st !! (input + k)) eqn:Hx; [eexists; reflexivity |].
    assert (Hf : CalculateCheckSum input length st = Fault)
      by (apply Hfault; exists k; split; assumption).
    congruence.
  - intros Hall. unfold CalculateCheckSum, bind.
    destruct (checksum_loop_frame (Z.to_nat length) input length 0 0 st)
      as [Hf | [s Hs]]; [lia | |].
    + apply (checksum_loop_fault_iff (Z.to_nat length)) in Hf; [| lia].
      destruct Hf as (k & Hk & Hnone).
      destruct (Hall k Hk) as [x Hx]. congruence.
    + rewrite Hs. eexists. reflexivity.
Qed.

(** X2. The checksum does not see the order of the bytes: two byte
    sequences that are permutations of each other have the same
    checksum. *)
Theorem CalculateCheckSum_permutation st1 st2 input1 input2 b c :
  holds st1 input1 b ->
  holds st2 input2 c ->
  Permutation b c ->
  value_of (CalculateCheckSum input1 (Z.of_nat (length b)) st1)
  = value_of (CalculateCheckSum input2 (Z.of_nat (length c)) st2).
Proof.
  intros Hb Hc Hperm.
  rewrite (CalculateCheckSum_complement st1 input1 b Hb).
  rewrite (CalculateCheckSum_complement st2 input2 c Hc).
  cbn. rewrite (sum_bytes_Permutation b c Hperm). reflexivity.
Qed.

(** X3. The checksum detects the corruption of any single byte: two
    sequences that differ in exactly one byte have different
    checksums. *)
Theorem CalculateCheckSum_detects_single_byte
    st1 st2 input1 input2 pre post (x y : byte) :
  holds st1 input1 (pre ++ x :: post) ->
  holds st2 input2 (pre ++ y :: post) ->
  x <> y ->
  value_of (CalculateCheckSum input1
              (Z.of_nat (length (pre ++ x :: post))) st1)
  <> value_of (CalculateCheckSum input2
                 (Z.of_nat (length (pre ++ y :: post))) st2).
Proof.
  intros Hx Hy Hxy.
  rewrite (CalculateCheckSum_complement st1 input1 _ Hx).
  rewrite (CalculateCheckSum_complement st2 input2 _ Hy).
  cbn [value_of]. intros [= Heq].
  rewrite !sum_bytes_app in Heq. cbn [sum_bytes fold_right] in Heq.
  fold (sum_bytes post) in Heq.
  apply Hxy, byte_val_inj.
  pose proof (byte_val_range x) as Hrx. pose proof (byte_val_range y) as Hry.
  set (s := sum_bytes pre) in *. set (t := sum_bytes post) in *.
  assert (Hmod : (s + (byte_val x + t)) mod 256
                 = (s + (byte_val y + t)) mod 256) by lia.
  clear Heq. revert Hmod.
  generalize (byte_val x) (byte_val y) Hrx Hry. clear.
  intros vx vy Hrx Hry Hmod.
  assert (Hd : (vx - vy) mod 256 = 0).
  { replace (vx - vy) with ((s + (vx + t)) - (s + (vy + t))) by lia.
    rewrite Zminus_mod, Hmod, Z.sub_diag. reflexivity. }
  apply Z.mod_divide in Hd; [| lia].
  destruct Hd as [q Hq]. nia.
Qed.

(** X4. Verification by recomputation: over a payload followed by one
    trailing byte, the checksum is 0 exactly when the trailing byte is
    the checksum of the payload. *)
Theorem CalculateCheckSum_frame_zero_iff st input b (t : byte) :
  holds st input (b ++ [t]) ->
  CalculateCheckSum input (Z.of_nat (length (b ++ [t]))) st = Ok 0 st
  <-> CalculateCheckSum input (Z.of_nat (length b)) st = Ok (byte_val t) st.
Proof.
  intros Hbt. pose proof (holds_app_l _ _ _ _ Hbt) as Hb.
  rewrite (CalculateCheckSum_complement st input _ Hbt).
  rewrite (CalculateCheckSum_complement st input _ Hb).
  rewrite sum_bytes_app. cbn [sum_bytes fold_right]. rewrite Z.add_0_r.
  pose proof (byte_val_range t) as Ht.
  pose proof (Z.mod_pos_bound (sum_bytes b) 256 ltac:(lia)) as Hs.
  pose proof (Z.mod_pos_bound (sum_bytes b + byte_val t) 256 ltac:(lia)) as Hst.
  rewrite <- (Zplus_mod_idemp_l (sum_bytes b)) in Hst |- *.
  set (s := sum_bytes b mod 256) in *.
  split; intros [= Heq]; f_equal.
  - assert (Hq : (s + byte_val t) mod 256 = 255) by lia.
    rewrite Z.mod_eq in Hq by lia.
    assert ((s + byte_val t) / 256 = 0 \/ (s + byte_val t) / 256 = 1)
      as [Hz | Hz]
      by (assert (0 <= (s + byte_val t) / 256 < 2)
            by (split; [apply Z.div_pos; lia
                       | apply Z.div_lt_upper_bound; lia]); lia);
      rewrite Hz in Hq; lia.
  - replace (s + byte_val t) with 255 by lia. reflexivity.
Qed.

(** X5. The checksum of two sequences laid out one after the other is
    the sum of their checksums plus one, as a [uint8_t]. *)
Theorem CalculateCheckSum_app st input b c :
  holds st input (b ++ c) ->
  exists cb cc,
    CalculateCheckSum input (Z.of_nat (length b)) st = Ok cb st
    /\ CalculateCheckSum (input + Z.of_nat (length b))
         (Z.of_nat (length c)) st = Ok cc st
    /\ CalculateCheckSum input (Z.of_nat (length (b ++ c))) st
       = Ok (wrap8 (cb + cc + 1)) st.
Proof.
  intros Hbc.
  pose proof (holds_app_l _ _ _ _ Hbc) as Hb.
  pose proof (holds_app_r _ _ _ _ Hbc) as Hc.
  eexists. eexists.
  split; [apply (CalculateCheckSum_complement st input b Hb) |].
  split; [apply (CalculateCheckSum_complement st _ c Hc) |].
  rewrite (CalculateCheckSum_complement st input _ Hbc).
  f_equal. rewrite sum_bytes_app. unfold wrap8.
  pose proof (Z.mod_pos_bound (sum_bytes b + sum_bytes c) 256 ltac:(lia)) as Hr.
  replace (255 - sum_bytes b mod 256 + (255 - sum_bytes c mod 256) + 1)
    with (255 - (sum_bytes b mod 256 + sum_bytes c mod 256) + 1 * 256) by lia.
  rewrite Z_mod_plus_full.
  rewrite (Zplus_mod (sum_bytes b) (sum_bytes c)) in Hr |- *.
  rewrite <- (Zminus_mod_idemp_r 255).
  symmetry. apply Z.mod_small. lia.
Qed.

(** X6. Zero bytes are not seen: the checksum of a sequence followed
    by any number of 0x00 bytes is the checksum of the sequence
    alone, so the checksum does not protect the length of a frame. *)
Theorem CalculateCheckSum_zero_padding st input b (n : nat) :
  holds st input (b ++ repeat x00 n) ->
  CalculateCheckSum input (Z.of_nat (length (b ++ repeat x00 n))) st
  = CalculateCheckSum input (Z.of_nat (length b)) st.
Proof.
  intros Hbz. pose proof (holds_app_l _ _ _ _ Hbz) as Hb.
  rewrite (CalculateCheckSum_complement st input _ Hbz).
  rewrite (CalculateCheckSum_complement st input _ Hb).
  rewrite sum_bytes_app.
  rewrite sum_bytes_zeros, Z.add_0_r. reflexivity.
Qed.

End ChecksumFurther.

Lemma CalculateCheckSum_permutation_witness :
  value_of (CalculateCheckSum 100 2 example_state)
  = value_of (CalculateCheckSum 200 2 swapped_state).
Proof.
  exact (CalculateCheckSum_permutation example_state swapped_state 100 200
           [x01; x02] [x02; x01]
           (holds_store_bytes [x01; x02] 100 ∅ {[ 8 := 0 ]})
           (holds_store_bytes [x02; x01] 200 ∅ ∅)
           (perm_swap x02 x01 [])).
Defined.

Lemma CalculateCheckSum_detects_single_byte_witness :
  value_of (CalculateCheckSum 100 2 example_state)
  <> value_of (CalculateCheckSum 100 2 corrupted_state).
Proof.
  apply (CalculateCheckSum_detects_single_byte example_state corrupted_state
           100 100 [x01] [] x02 x03
           (holds_store_bytes [x01; x02] 100 ∅ {[ 8 := 0 ]})
           (holds_store_bytes [x01; x03] 100 ∅ ∅)).
  discriminate.
Defined.

Lemma CalculateCheckSum_frame_zero_iff_witness :
  CalculateCheckSum 100 3 frame_state = Ok 0 frame_state.
Proof.
  apply (proj2 (CalculateCheckSum_frame_zero_iff frame_state 100
                  [x01; x02] xfc
                  (holds_store_bytes [x01; x02; xfc] 100 ∅ ∅))).
  vm_compute. reflexivity.
Defined.

Lemma CalculateCheckSum_app_witness :
  exists cb cc,
    CalculateCheckSum 100 1 example_state = Ok cb example_state
    /\ CalculateCheckSum 101 1 example_state = Ok cc example_state
    /\ CalculateCheckSum 100 2 example_state
       = Ok (wrap8 (cb + cc + 1)) example_state.
Proof.
  exact (CalculateCheckSum_app example_state 100 [x01] [x02]
           (holds_store_bytes [x01; x02] 100 ∅ {[ 8 := 0 ]})).
Defined.

Lemma CalculateCheckSum_zero_padding_witness :
  CalculateCheckSum 100 4 padded_state = CalculateCheckSum 100 2 padded_state.
Proof.
  exact (CalculateCheckSum_zero_padding padded_state 100 [x01; x02] 2
           (holds_store_bytes [x01; x02; x00; x00] 100 ∅ ∅)).
Defined.

(** ** Further properties of [BoundedValue] *)

Section BoundedValueFurther.

Context {SensorType : Type}.
Implicit Types (st : State SensorType).

(** X7. On the integers, for [lower <= upper], [BoundedValue] is the
    clamp [max(lower, min(upper, val))]. *)
Theorem BoundedValue_max_min st (lower upper val : Z) :
  lower <= upper ->
  BoundedValue lower upper val st = Ok (Z.max lower (Z.min upper val)) st.
Proof.
  intros Hle. rewrite BoundedValue_cases. cbn [op_gt op_lt Z_RelOps].
  rewrite !Z.gtb_ltb.
  destruct (Z.ltb_spec upper lower); [lia |].
  destruct (Z.ltb_spec val lower); [f_equal; lia |].
  destruct (Z.ltb_spec upper val); f_equal; lia.
Qed.

(** X8. On the integers [BoundedValue] is monotone in [val], for every
    pair of bounds: it never reverses the order of two readings. *)
Theorem BoundedValue_monotone st (lower upper val1 val2 : Z) :
  val1 <= val2 ->
  exists r1 r2,
    BoundedValue lower upper val1 st = Ok r1 st
    /\ BoundedValue lower upper val2 st = Ok r2 st
    /\ r1 <= r2.
Proof.
  intros Hle. eexists. eexists.
  split; [apply BoundedValue_cases |].
  split; [apply BoundedValue_cases |].
  cbn [op_gt op_lt Z_RelOps]. rewrite !Z.gtb_ltb.
  destruct (Z.ltb_spec upper lower); [exact Hle |].
  destruct (Z.ltb_spec val1 lower), (Z.ltb_spec val2 lower),
    (Z.ltb_spec upper val1), (Z.ltb_spec upper val2); lia.
Qed.

(** X9. For [lower <= upper] and a comparable [val], [BoundedValue]
    returns [val] itself exactly when [val] is in [[lower, upper]]. *)
Theorem BoundedValue_fixes_iff {T : Type} `{OrderedRelOps T}
    st (lower upper val : T) :
  op_le lower upper = true ->
  op_le val val = true ->
  BoundedValue lower upper val st = Ok val st
  <-> op_le lower val = true /\ op_le val upper = true.
Proof.
  intros Hle Hval.
  destruct (op_le_comparable _ _ Hle) as [Hlower Hupper].
  pose proof (op_le_lt lower upper Hlower Hupper) as Hlu.
  rewrite Hle in Hlu. symmetry in Hlu. apply negb_true_iff in Hlu.
  rewrite (op_le_lt lower val Hlower Hval), (op_le_lt val upper Hval Hupper).
  rewrite !negb_true_iff.
  rewrite BoundedValue_cases, !op_gt_lt, Hlu.
  destruct (op_lt val lower) eqn:Hvl.
  - split; [| intros [? _]; discriminate].
    intros [= Heq]. rewrite Heq, op_lt_irrefl in Hvl. discriminate.
  - destruct (op_lt upper val) eqn:Huv.
    + split; [| intros [_ ?]; discriminate].
      intros [= Heq]. rewrite Heq, op_lt_irrefl in Huv. discriminate.
    + split; [split; reflexivity | reflexivity].
Qed.

(** A [double] that is not comparable (NaN) is below and above
    nothing. *)
Lemma double_not_comparable (v x : float) :
  op_le v v = false -> op_lt v x = false /\ op_lt x v = false.
Proof.
  cbn. rewrite !ltb_spec, leb_spec.
  unfold SpecFloat.SFleb, SpecFloat.SFltb.
  destruct (Prim2SF v) as [s | s | | s m e]; cbn.
  - destruct s; discriminate.
  - destruct s; discriminate.
  - intros _. split; [reflexivity |].
    destruct (Prim2SF x); reflexivity.
  - rewrite Z.compare_refl, Pos.compare_cont_refl.
    destruct s; discriminate.
Qed.

(** X10. At [double], a NaN value passes through [BoundedValue]
    unchanged, whatever the bounds. *)
Theorem BoundedValue_NaN_passthrough st (lower upper val : float) :
  op_le val val = false ->
  BoundedValue lower upper val st = Ok val st.
Proof.
  intros Hnan. rewrite BoundedValue_cases.
  destruct (double_not_comparable val lower Hnan) as [Hvl _].
  destruct (double_not_comparable val upper Hnan) as [_ Huv].
  change (op_gt val upper) with (op_lt upper val).
  rewrite Hvl, Huv.
  destruct (op_gt lower upper); reflexivity.
Qed.

(** X11. At [double], a NaN bound is no bound: with a NaN [upper] only
    [lower] is enforced, and with a NaN [lower] only [upper]. *)
Theorem BoundedValue_NaN_bound st (lower upper val : float) :
  (op_le upper upper = false ->
   BoundedValue lower upper val st
   = Ok (if op_lt val lower then lower else val) st)
  /\ (op_le lower lower = false ->
      BoundedValue lower upper val st
      = Ok (if op_gt val upper then upper else val) st).
Proof.
  split; intros Hnan; rewrite BoundedValue_cases.
  - destruct (double_not_comparable upper lower Hnan) as [Hul _].
    destruct (double_not_comparable upper val Hnan) as [Huv _].
    change (op_gt lower upper) with (op_lt upper lower).
    change (op_gt val upper) with (op_lt upper val).
    rewrite Hul, Huv. reflexivity.
  - destruct (double_not_comparable lower upper Hnan) as [_ Hul].
    destruct (double_not_comparable lower val Hnan) as [_ Hvl].
    change (op_gt lower upper) with (op_lt upper lower).
    rewrite Hul, Hvl. reflexivity.
Qed.

End BoundedValueFurther.

Lemma BoundedValue_max_min_witness :
  BoundedValue 0 10 15 example_state = Ok 10 example_state.
Proof.
  apply (BoundedValue_max_min example_state 0 10 15). lia.
Defined.

Lemma BoundedValue_monotone_witness :
  exists r1 r2,
    BoundedValue 0 10 (-5) example_state = Ok r1 example_state
    /\ BoundedValue 0 10 15 example_state = Ok r2 example_state
    /\ r1 <= r2.
Proof.
  apply (BoundedValue_monotone example_state 0 10 (-5) 15). lia.
Defined.

Lemma BoundedValue_fixes_iff_witness :
  BoundedValue 0 10 5 example_state = Ok 5 example_state
  /\ BoundedValue 0%float 10%float 15%float example_state
     <> Ok 15%float example_state.
Proof.
  split.
  - apply (BoundedValue_fixes_iff example_state 0 10 5);
      [reflexivity | reflexivity | split; reflexivity].
  - intros Hfix.
    apply (BoundedValue_fixes_iff example_state 0%float 10%float 15%float)
      in Hfix; [| reflexivity | reflexivity].
    destruct Hfix as [_ Hup]. vm_compute in Hup. discriminate.
Defined.

Lemma BoundedValue_NaN_passthrough_witness :
  BoundedValue 10%float 0%float nan example_state = Ok nan example_state
  /\ BoundedValue neg_infinity infinity nan example_state
     = Ok nan example_state.
Proof.
  split.
  - apply (BoundedValue_NaN_passthrough example_state 10%float 0%float nan).
    reflexivity.
  - apply (BoundedValue_NaN_passthrough example_state neg_infinity infinity nan).
    reflexivity.
Defined.

Lemma BoundedValue_NaN_bound_witness :
  BoundedValue 0%float nan 15%float example_state
  = Ok 15%float example_state
  /\ BoundedValue nan 10%float (-5)%float example_state
     = Ok (-5)%float example_state.
Proof.
  split.
  - apply (proj1 (BoundedValue_NaN_bound example_state 0%float nan 15%float)).
    reflexivity.
  - apply (proj2 (BoundedValue_NaN_bound example_state nan 10%float
                    (-5)%float)).
    reflexivity.
Defined.
